(** * A shallow embedding of [engine.py] of the particle system simulator.

    Floats are modelled as real numbers; an (r x c) numpy array is a list
    of [r] rows of [c] reals.  The engine is deterministic given its
    [State], its [Config] and the stream of noise draws, so the noise
    source is a function from a draw number to a matrix of factors, and
    the draw counter is threaded through the code by a small state monad. *)

From Stdlib Require Import Reals Lra List Bool Arith ZArith Lia.
Import ListNotations.
Open Scope R_scope.

(** ** Arrays *)

Abbreviation vec := (list R).
Abbreviation mat := (list (list R)).

(** Element-wise combination of two arrays of the same shape. *)
Fixpoint zipw {A B C : Type} (f : A -> B -> C) (l1 : list A) (l2 : list B)
  : list C :=
  match l1, l2 with
  | x :: l1', y :: l2' => f x y :: zipw f l1' l2'
  | _, _ => []
  end.

Fixpoint mapi_from {A B : Type} (f : nat -> A -> B) (k : nat) (l : list A)
  : list B :=
  match l with
  | [] => []
  | x :: l' => f k x :: mapi_from f (S k) l'
  end.

Definition mapi {A B : Type} (f : nat -> A -> B) (l : list A) : list B :=
  mapi_from f 0 l.

Definition madd (m1 m2 : mat) : mat := zipw (zipw Rplus) m1 m2.
Definition msub (m1 m2 : mat) : mat := zipw (zipw Rminus) m1 m2.
Definition mmul (m1 m2 : mat) : mat := zipw (zipw Rmult) m1 m2.
Definition mscale (m : mat) (c : R) : mat := map (map (fun x => x * c)) m.

(** [m.shape], one length per row (all equal for a numpy array). *)
Definition shape_of (m : mat) : list nat := map (@length R) m.

(** [m.shape[1]]. *)
Definition ncols (m : mat) : nat :=
  match m with [] => 0%nat | r :: _ => length r end.

(** [w @ m] for a row vector [w] and an (n x d) matrix [m]. *)
Definition vecmat (w : vec) (m : mat) (d : nat) : vec :=
  fold_right (fun '(wj, rj) acc => zipw Rplus (map (Rmult wj) rj) acc)
    (repeat 0 d) (combine w m).

(** ** External collaborators *)

(** Modelled from the spec: [Utils.inplace_clip_by_abs] (util.py is not
    under src/), which "clamps every element to [-bound, +bound]". *)
Definition clip_by_abs (bound x : R) : R := Rmin bound (Rmax (- bound) x).

Definition clip_m (m : mat) (bound : R) : mat := map (map (clip_by_abs bound)) m.

(** Modelled from the spec: [Randomizer.gen_epsilon_matrix]
    (randomizer.py is not under src/), a sequential noise source that
    returns one fresh matrix of multiplicative factors per call.  Draw
    number [k] yields the factor [noise k i j] at row [i], column [j]. *)
Definition Noise := nat -> nat -> nat -> R.

(** The randomizer monad: the state is the number of draws made so far. *)
Definition RM (A : Type) := nat -> A * nat.
Definition ret {A : Type} (x : A) : RM A := fun k => (x, k).
Definition bind {A B : Type} (m : RM A) (f : A -> RM B) : RM B :=
  fun k => let (x, k') := m k in f x k'.
Notation "x <- m ;; f" := (bind m (fun x => f))
  (at level 61, m at next level, right associativity).

Definition gen_epsilon_matrix (noise : Noise) (shape : list nat) : RM mat :=
  fun k => (mapi (fun i c => map (noise k i) (seq 0 c)) shape, S k).

(** ** Data model *)

Record State := mkState {
  p : mat; v : mat; a : mat;
  pred_p : mat; pred_v : mat; pred_a : mat
}.

Record Config := mkConfig {
  v_max : R; v_decay : R; a_max : R; d_max : R; u_max : R;
  u1_p : R; u2_p : R; u2_dopt : R; u3_p : R; u3_dmax : R;
  uw : mat
}.

Record EngineRunResult := mkResult {
  states : list State;
  urgencies : option (list (list mat))
}.

(** ** Distances (scipy) *)

(** Euclidean distance of two points, as [pdist] and [cdist] compute it. *)
Definition euclid (x y : vec) : R :=
  sqrt (fold_right Rplus 0 (zipw (fun s t => (s - t) * (s - t)) x y)).

(** [squareform(pdist(p))]: symmetric, with an explicit zero diagonal. *)
Definition pdist_matrix (pm : mat) : mat :=
  mapi (fun i pi => mapi (fun j pj => if Nat.eqb i j then 0 else euclid pi pj) pm) pm.

(** [cdist(p, pred_p)]. *)
Definition cdist (pm qm : mat) : mat :=
  map (fun pi => map (fun qk => euclid pi qk) qm) pm.

(** [np.logical_and(distances > 0, distances <= bound)]. *)
Definition in_range (bound d : R) : bool :=
  if Rlt_dec 0 d then (if Rle_dec d bound then true else false) else false.

(** [uw[:, c]] for row [i], as a factor broadcast across the axes. *)
Definition uw_col (c : nat) (w : vec) : R := nth c w 0.

(** [u * k * uw[:, c].reshape((-1, 1))]. *)
Definition weigh (u : mat) (k : R) (uwm : mat) (c : nat) : mat :=
  zipw (fun r w => map (fun x => x * k * uw_col c w) r) u uwm.

(** ** The engine *)

Section Engine.

Variable noise : Noise.
Variable cfg : Config.

(** [Engine._calculate_urgency1]: attraction to the barycenter of the
    particles in range. *)
Definition weights1 (distances : mat) : mat :=
  map (fun row =>
         let cnt := count_occ Bool.bool_dec (map (in_range (d_max cfg)) row) true in
         map (fun d => if in_range (d_max cfg) d then 1 / INR cnt else 0) row)
    distances.

Definition calculate_urgency1 (st : State) (distances : mat) : RM mat :=
  let baricenters := map (fun w => vecmat w (p st) (ncols (p st)))
                         (weights1 distances) in
  eps <- gen_epsilon_matrix noise (shape_of (p st)) ;;
  let u1_vector := mmul (msub baricenters (p st)) eps in
  ret (weigh u1_vector (u1_p cfg) (uw cfg) 0).

(** The repulsion weight [(dopt - d) / (dopt * d)] of [np.divide] with
    [where=in_range] into a zero-filled output. *)
Definition repulsion_weight (dopt d : R) : R :=
  if in_range dopt d then (dopt - d) / (dopt * d) else 0.

Definition weights2 (distances : mat) : mat :=
  map (map (repulsion_weight (u2_dopt cfg))) distances.

(** [p[:, np.newaxis] - q]: the (n, m, d) displacement vectors. *)
Definition distance_vectors (pm qm : mat) : list mat :=
  map (fun pi => map (fun qj => zipw Rminus pi qj) qm) pm.

(** [np.matmul(weights.reshape((n, 1, m)), distance_vectors).reshape(n, -1)]. *)
Definition batched_matmul (w : mat) (dv : list mat) (d : nat) : mat :=
  zipw (fun wi dvi => vecmat wi dvi d) w dv.

(** [Engine._calculate_urgency2]: short range repulsion. *)
Definition calculate_urgency2 (st : State) (distances : mat) : RM mat :=
  let weights := weights2 distances in
  let dv := distance_vectors (p st) (p st) in
  eps <- gen_epsilon_matrix noise (shape_of (p st)) ;;
  let u2_vector := mmul (batched_matmul weights dv (ncols (p st))) eps in
  ret (weigh u2_vector (u2_p cfg) (uw cfg) 1).

Definition weights3 (distances_from_predators : mat) : mat :=
  map (map (repulsion_weight (u3_dmax cfg))) distances_from_predators.

(** [Engine._calculate_urgency3]: predator avoidance; the particle
    distance matrix it receives is unused. *)
Definition calculate_urgency3 (st : State) (_unused_distances : mat) : RM mat :=
  let weights := weights3 (cdist (p st) (pred_p st)) in
  let dv := distance_vectors (p st) (pred_p st) in
  eps <- gen_epsilon_matrix noise (shape_of (p st)) ;;
  let u3_vector := mmul (batched_matmul weights dv (ncols (p st))) eps in
  ret (weigh u3_vector (u3_p cfg) (uw cfg) 2).

(** [u_tot / u_max * a_max], clipped to [a_max]: the acceleration before
    the noise is applied. *)
Definition clipped_acceleration (u1 u2 u3 : mat) : mat :=
  clip_m (mscale (mscale (madd (madd u1 u2) u3) (/ u_max cfg)) (a_max cfg))
    (a_max cfg).

(** [math.pow(v_decay, timestep)].  Exact for a positive base, and for
    base 0 with a non-negative exponent; for a negative base Python returns
    a signed power or raises, which this does not model (the decay factor
    is only ever read before the velocity is clipped). *)
Definition math_pow (x y : R) : R :=
  if Rlt_dec 0 x then Rpower x y
  else if Req_EM_T y 0 then 1 else 0.

(** [Engine._step_particles]. *)
Definition step_particles (timestep : R) (return_urgency_vectors : bool)
    (st : State) : RM (State * option (list mat)) :=
  let distances := pdist_matrix (p st) in
  u1 <- calculate_urgency1 st distances ;;
  u2 <- calculate_urgency2 st distances ;;
  u3 <- calculate_urgency3 st distances ;;
  let a0 := clipped_acceleration u1 u2 u3 in
  eps <- gen_epsilon_matrix noise (shape_of a0) ;;
  let a1 := mmul a0 eps in
  let v1 := mscale (v st) (math_pow (v_decay cfg) timestep) in
  let v2 := madd v1 (mscale a1 timestep) in
  let v3 := clip_m v2 (v_max cfg) in
  let p1 := madd (p st) (mscale v3 timestep) in
  ret (mkState p1 v3 a1 (pred_p st) (pred_v st) (pred_a st),
       if return_urgency_vectors then Some [u1; u2; u3] else None).

(** [Engine._step_predators]. *)
Definition step_predators (timestep : R) (st : State) : RM State :=
  eps <- gen_epsilon_matrix noise (shape_of (pred_a st)) ;;
  let pa := mmul (pred_a st) eps in
  let pv := madd (pred_v st) (mscale pa timestep) in
  let pp := madd (pred_p st) (mscale pv timestep) in
  ret (mkState (p st) (v st) (a st) pp pv pa).

(** One iteration of the loop body of [Engine.run]. *)
Definition engine_step (timestep : R) (return_urgency_vectors : bool)
    (st : State) : RM (State * option (list mat)) :=
  r <- step_particles timestep return_urgency_vectors st ;;
  st2 <- step_predators timestep (fst r) ;;
  ret (st2, snd r).

(** [iterations] steps in a row, recording nothing. *)
Fixpoint steps (timestep : R) (return_urgency_vectors : bool) (n : nat)
    (st : State) : RM State :=
  match n with
  | O => ret st
  | S n' => r <- engine_step timestep return_urgency_vectors st ;;
            steps timestep return_urgency_vectors n' (fst r)
  end.

(** The [for iteration in range(1, iterations + 1)] loop of [Engine.run];
    [k] iterations are left, the next one has index [iteration]. *)
Fixpoint run_loop (timestep : R) (skip_initial_states : nat)
    (return_urgency_vectors : bool) (k iteration : nat) (st : State)
    (sts : list State) (uvs : list (list mat))
    : RM (list State * list (list mat) * State) :=
  match k with
  | O => ret (sts, uvs, st)
  | S k' =>
      r <- engine_step timestep return_urgency_vectors st ;;
      let st1 := fst r in
      if (Z.of_nat iteration >? Z.of_nat skip_initial_states - 1)%Z then
        run_loop timestep skip_initial_states return_urgency_vectors k'
          (S iteration) st1 (sts ++ [st1])
          (if return_urgency_vectors
           then uvs ++ [match snd r with Some u => u | None => [] end]
           else uvs)
      else
        run_loop timestep skip_initial_states return_urgency_vectors k'
          (S iteration) st1 sts uvs
  end.

(** [Engine.run]: the result and the engine's state afterwards. *)
Definition run (timestep : R) (iterations skip_initial_states : nat)
    (return_urgency_vectors : bool) (st : State)
    : RM (EngineRunResult * State) :=
  let '(sts0, uvs0) :=
    if (0 <? skip_initial_states)%nat then ([], [])
    else ([st], [repeat (repeat (repeat 0 (ncols (p st))) (length (p st))) 3]) in
  r <- run_loop timestep skip_initial_states return_urgency_vectors
         iterations 1 st sts0 uvs0 ;;
  let '(sts, uvs, st') := r in
  ret (mkResult sts (if return_urgency_vectors then Some uvs else None), st').

End Engine.

(** ** Engine construction, at the level of numpy shapes *)

(** [Engine.__init__] only reads the [shape] tuples of the arrays, so here
    an array is its shape tuple (of any rank) and its elements. *)
Module Construction.

Record Arr := mkArr { shape : list nat; elems : list R }.

Record State := mkState {
  p : Arr; v : Arr; a : Arr;
  pred_p : Arr; pred_v : Arr; pred_a : Arr
}.

Record Config := mkConfig {
  v_max : R; v_decay : R; a_max : R; d_max : R; u_max : R;
  u1_p : R; u2_p : R; u2_dopt : R; u3_p : R; u3_dmax : R;
  uw : Arr
}.

(** The engine keeps its state, its config and a fresh randomizer. *)
Record Engine := mkEngine { e_state : State; e_cfg : Config; e_rand : nat }.

Inductive Exn :=
  (** [ValueError("Inconsistent shapes: p=... v=... a=... uw=...")] *)
  | ValueError (ps vs as_ uws : list nat)
  (** [p.shape[0]] on a zero-dimensional array *)
  | IndexError.

Inductive Result (A : Type) := Ok (x : A) | Raise (e : Exn).
Arguments Ok {A} x.
Arguments Raise {A} e.

Definition shape_neq (s1 s2 : list nat) : bool :=
  if list_eq_dec Nat.eq_dec s1 s2 then false else true.

(** [Engine.__init__], with the short-circuit of Python's [or]. *)
Definition engine_init (st : State) (cfg : Config) : Result Engine :=
  let e := mkEngine st cfg 0 in
  let err := ValueError (shape (p st)) (shape (v st)) (shape (a st))
                        (shape (uw cfg)) in
  if shape_neq (shape (p st)) (shape (v st)) then Raise err
  else if shape_neq (shape (p st)) (shape (a st)) then Raise err
  else match shape (p st) with
       | [] => Raise IndexError
       | n :: _ => if shape_neq (shape (uw cfg)) [n; 3%nat] then Raise err
                   else Ok e
       end.

End Construction.

(** * Properties *)

(** [m[i][j]], when it exists. *)
Definition entry (m : mat) (i j : nat) : option R :=
  match nth_error m i with Some r => nth_error r j | None => None end.

(** A constant noise source: every factor is [c]. *)
Definition const_noise (c : R) : Noise := fun _ _ _ => c.

(** ** The run loop *)

Section RunLoop.

Variable noise : Noise.
Variable cfg : Config.
Variable timestep : R.
Variable ret_u : bool.

Lemma record_cond (i s : nat) :
  (Z.of_nat i >? Z.of_nat s - 1)%Z = (s <=? i)%nat.
Proof.
  rewrite Z.gtb_ltb. destruct (s <=? i)%nat eqn:E.
  - apply Nat.leb_le in E. apply Z.ltb_lt. lia.
  - apply Nat.leb_gt in E. apply Z.ltb_ge. lia.
Qed.

Lemma steps_S (n : nat) (st : State) (c : nat) :
  steps noise cfg timestep ret_u (S n) st c =
  let (r, c1) := engine_step noise cfg timestep ret_u st c in
  steps noise cfg timestep ret_u n (fst r) c1.
Proof. reflexivity. Qed.

Lemma steps_snoc (j : nat) (st : State) (c : nat) :
  steps noise cfg timestep ret_u (S j) st c =
  let (sj, cj) := steps noise cfg timestep ret_u j st c in
  let (r, c1) := engine_step noise cfg timestep ret_u sj cj in (fst r, c1).
Proof.
  revert st c. induction j as [|j IH]; intros st c.
  - rewrite steps_S. cbn [steps]. unfold ret.
    destruct (engine_step noise cfg timestep ret_u st c). reflexivity.
  - rewrite (steps_S (S j)), (steps_S j).
    destruct (engine_step noise cfg timestep ret_u st c) as [r c1].
    apply IH.
Qed.

Lemma run_loop_S (skip k it : nat) (st : State) sts uvs (c : nat) :
  run_loop noise cfg timestep skip ret_u (S k) it st sts uvs c =
  let (r, c1) := engine_step noise cfg timestep ret_u st c in
  if (skip <=? it)%nat then
    run_loop noise cfg timestep skip ret_u k (S it) (fst r) (sts ++ [fst r])
      (if ret_u then uvs ++ [match snd r with Some u => u | None => [] end]
       else uvs) c1
  else run_loop noise cfg timestep skip ret_u k (S it) (fst r) sts uvs c1.
Proof.
  cbn [run_loop]. unfold bind. rewrite record_cond.
  destruct (engine_step noise cfg timestep ret_u st c).
  destruct (skip <=? it)%nat; reflexivity.
Qed.

(** The states recorded by the loop are the states after each iteration
    whose index is at least [skip_initial_states]. *)
Lemma run_loop_states (skip k j : nat) (st0 : State) (c0 : nat) sts uvs :
  fst (fst (fst (run_loop noise cfg timestep skip ret_u k (S j)
       (fst (steps noise cfg timestep ret_u j st0 c0)) sts uvs
       (snd (steps noise cfg timestep ret_u j st0 c0))))) =
  sts ++ map (fun i => fst (steps noise cfg timestep ret_u i st0 c0))
             (filter (fun i => (skip <=? i)%nat) (seq (S j) k)).
Proof.
  revert j sts uvs. induction k as [|k IH]; intros j sts uvs.
  - cbn. rewrite app_nil_r. reflexivity.
  - rewrite run_loop_S.
    pose proof (steps_snoc j st0 c0) as Hs.
    destruct (steps noise cfg timestep ret_u j st0 c0) as [sj cj].
    cbn [fst snd] in *.
    destruct (engine_step noise cfg timestep ret_u sj cj) as [r c1].
    cbn [fst snd] in *. cbn [seq filter].
    destruct (skip <=? S j)%nat.
    + specialize (IH (S j) (sts ++ [fst r])
        (if ret_u then uvs ++ [match snd r with Some u => u | None => [] end]
         else uvs)).
      rewrite Hs in IH. cbn [fst snd] in IH. rewrite IH.
      cbn [map]. rewrite Hs. cbn [fst]. rewrite <- app_assoc. reflexivity.
    + specialize (IH (S j) sts uvs). rewrite Hs in IH. exact IH.
Qed.

(** The loop performs exactly [k] steps. *)
Lemma run_loop_final (skip k j : nat) (st0 : State) (c0 : nat) sts uvs :
  let r := run_loop noise cfg timestep skip ret_u k (S j)
       (fst (steps noise cfg timestep ret_u j st0 c0)) sts uvs
       (snd (steps noise cfg timestep ret_u j st0 c0)) in
  (snd (fst r), snd r) = steps noise cfg timestep ret_u (j + k) st0 c0.
Proof.
  revert j sts uvs. induction k as [|k IH]; intros j sts uvs; cbv zeta.
  - cbn. rewrite Nat.add_0_r. symmetry. apply surjective_pairing.
  - rewrite run_loop_S.
    pose proof (steps_snoc j st0 c0) as Hs.
    replace (j + S k)%nat with (S j + k)%nat by lia.
    destruct (steps noise cfg timestep ret_u j st0 c0) as [sj cj].
    cbn [fst snd] in *.
    destruct (engine_step noise cfg timestep ret_u sj cj) as [r c1].
    cbn [fst snd] in *.
    destruct (skip <=? S j)%nat.
    + specialize (IH (S j) (sts ++ [fst r])
        (if ret_u then uvs ++ [match snd r with Some u => u | None => [] end]
         else uvs)).
      rewrite Hs in IH. exact IH.
    + specialize (IH (S j) sts uvs). rewrite Hs in IH. exact IH.
Qed.

(** Iterations below [skip_initial_states] record nothing. *)
Lemma run_loop_skipped (skip k j : nat) (st : State) (c : nat) sts uvs :
  (j + k < skip)%nat ->
  fst (fst (run_loop noise cfg timestep skip ret_u k (S j) st sts uvs c)) =
  (sts, uvs).
Proof.
  revert j st c. induction k as [|k IH]; intros j st c Hlt.
  - reflexivity.
  - rewrite run_loop_S.
    destruct (engine_step noise cfg timestep ret_u st c) as [r c1].
    replace (skip <=? S j)%nat with false by (symmetry; apply Nat.leb_gt; lia).
    apply IH. lia.
Qed.

End RunLoop.

Lemma filter_seq_length (s a k : nat) :
  length (filter (fun i => (s <=? i)%nat) (seq a k)) = (a + k - Nat.max a s)%nat.
Proof.
  revert a. induction k as [|k IH]; intros a.
  - cbn. lia.
  - cbn [seq filter]. destruct (s <=? a)%nat eqn:E.
    + apply Nat.leb_le in E. cbn [length]. rewrite IH. lia.
    + apply Nat.leb_gt in E. rewrite IH. lia.
Qed.

Section Run.

Variable noise : Noise.
Variable cfg : Config.
Variable timestep : R.
Variable ret_u : bool.

Definition initial_record (st : State) (skip : nat) : list State * list (list mat) :=
  if (0 <? skip)%nat then ([], [])
  else ([st], [repeat (repeat (repeat 0 (ncols (p st))) (length (p st))) 3]).

Lemma run_unfold (iterations skip : nat) (st : State) (c : nat) :
  run noise cfg timestep iterations skip ret_u st c =
  let '(sts, uvs, st', c') :=
    run_loop noise cfg timestep skip ret_u iterations 1 st
      (fst (initial_record st skip)) (snd (initial_record st skip)) c in
  ((mkResult sts (if ret_u then Some uvs else None), st'), c').
Proof.
  unfold run, initial_record, bind, ret.
  destruct (0 <? skip)%nat; cbn [fst snd];
    destruct (run_loop _ _ _ _ _ _ _ _ _ _ c) as [[[x y] z] w]; reflexivity.
Qed.

Lemma run_states (iterations skip : nat) (st : State) (c : nat) :
  states (fst (fst (run noise cfg timestep iterations skip ret_u st c))) =
  fst (initial_record st skip) ++
  map (fun i => fst (steps noise cfg timestep ret_u i st c))
      (filter (fun i => (skip <=? i)%nat) (seq 1 iterations)).
Proof.
  rewrite run_unfold.
  pose proof (run_loop_states noise cfg timestep ret_u skip iterations 0 st c
                (fst (initial_record st skip)) (snd (initial_record st skip))) as H.
  cbn [steps ret fst snd] in H.
  destruct (run_loop _ _ _ _ _ _ _ _ _ _ c) as [[[x y] z] w].
  cbn [fst snd] in H. cbn [states fst]. exact H.
Qed.

Lemma run_final (iterations skip : nat) (st : State) (c : nat) :
  (snd (fst (run noise cfg timestep iterations skip ret_u st c)),
   snd (run noise cfg timestep iterations skip ret_u st c)) =
  steps noise cfg timestep ret_u iterations st c.
Proof.
  rewrite run_unfold.
  pose proof (run_loop_final noise cfg timestep ret_u skip iterations 0 st c
                (fst (initial_record st skip)) (snd (initial_record st skip))) as H.
  cbn [steps ret fst snd] in H. cbv zeta in H.
  destruct (run_loop _ _ _ _ _ _ _ _ _ _ c) as [[[x y] z] w].
  exact H.
Qed.

End Run.

(** ** Claims about [Engine.run] *)

(** C3: for [0 <= skip_initial_states <= iterations], [run] records
    [iterations + 1] states when [skip_initial_states = 0] and
    [iterations - skip_initial_states + 1] states otherwise; in particular
    [run(iterations=5, skip_initial_states=5)] records exactly one state,
    the state after the fifth step. *)
Theorem run_states_length (noise : Noise) (cfg : Config) (timestep : R)
    (ret_u : bool) (iterations skip : nat) (st : State) (c : nat) :
  (skip <= iterations)%nat ->
  length (states (fst (fst (run noise cfg timestep iterations skip ret_u st c))))
    = (if (skip =? 0)%nat then iterations + 1 else iterations - skip + 1)%nat
  /\ states (fst (fst (run noise cfg timestep 5 5 ret_u st c)))
     = [fst (steps noise cfg timestep ret_u 5 st c)].
Proof.
  intros Hle. split.
  - rewrite run_states, length_app, length_map, filter_seq_length.
    unfold initial_record.
    destruct skip as [|s]; cbn [Nat.ltb Nat.leb Nat.eqb fst length]; lia.
  - rewrite run_states. reflexivity.
Qed.

(** C10: [run] does not check [skip_initial_states <= iterations]: for
    [skip_initial_states > iterations] (and [> 0]) it still performs
    exactly [iterations] steps, and returns no state and, if requested, no
    urgency vector. *)
Theorem run_skip_beyond_iterations (noise : Noise) (cfg : Config)
    (timestep : R) (ret_u : bool) (iterations skip : nat) (st : State) (c : nat) :
  (0 < skip)%nat -> (iterations < skip)%nat ->
  let r := run noise cfg timestep iterations skip ret_u st c in
  states (fst (fst r)) = []
  /\ urgencies (fst (fst r)) = (if ret_u then Some [] else None)
  /\ (snd (fst r), snd r) = steps noise cfg timestep ret_u iterations st c.
Proof.
  intros Hpos Hlt. cbv zeta. split; [|split].
  - rewrite run_states. unfold initial_record.
    replace (0 <? skip)%nat with true by (symmetry; apply Nat.ltb_lt; lia).
    cbn [fst app].
    apply length_zero_iff_nil. rewrite length_map, filter_seq_length. lia.
  - rewrite run_unfold.
    pose proof (run_loop_skipped noise cfg timestep ret_u skip iterations 0 st c
                  (fst (initial_record st skip)) (snd (initial_record st skip))
                  ltac:(lia)) as H.
    destruct (run_loop _ _ _ _ _ _ _ _ _ _ c) as [[[x y] z] w].
    cbn [fst] in H. injection H as -> ->.
    unfold initial_record.
    replace (0 <? skip)%nat with true by (symmetry; apply Nat.ltb_lt; lia).
    reflexivity.
  - apply run_final.
Qed.

(** ** Element access *)

Lemma nth_error_zipw {A B C : Type} (f : A -> B -> C) l1 l2 i z :
  nth_error (zipw f l1 l2) i = Some z ->
  exists x y, nth_error l1 i = Some x /\ nth_error l2 i = Some y /\ z = f x y.
Proof.
  revert l2 i. induction l1 as [|x l1 IH]; intros l2 i H.
  - destruct i; discriminate.
  - destruct l2 as [|y l2]; [destruct i; discriminate|].
    destruct i as [|i]; cbn in H |- *.
    + injection H as <-. exists x, y. auto.
    + apply IH. exact H.
Qed.

Lemma nth_error_mapi_from {A B : Type} (f : nat -> A -> B) k l i :
  nth_error (mapi_from f k l) i = option_map (f (k + i)%nat) (nth_error l i).
Proof.
  revert k i. induction l as [|x l IH]; intros k i.
  - destruct i; reflexivity.
  - destruct i as [|i]; cbn.
    + rewrite Nat.add_0_r. reflexivity.
    + rewrite IH. f_equal. f_equal. lia.
Qed.

Lemma entry_mmul (m e : mat) i j x :
  entry (mmul m e) i j = Some x ->
  exists y z, entry m i j = Some y /\ entry e i j = Some z /\ x = y * z.
Proof.
  unfold entry. intros H.
  destruct (nth_error (mmul m e) i) as [r|] eqn:Er; [|discriminate H].
  unfold mmul in Er.
  apply nth_error_zipw in Er as (rm & re & Hm & He & ->).
  rewrite Hm, He.
  apply nth_error_zipw in H as (y & z & Hy & Hz & ->). eauto.
Qed.

Lemma entry_gen (noise : Noise) (sh : list nat) k i j z :
  entry (fst (gen_epsilon_matrix noise sh k)) i j = Some z -> z = noise k i j.
Proof.
  unfold entry, gen_epsilon_matrix, mapi. cbn [fst].
  rewrite nth_error_mapi_from.
  destruct (nth_error sh i) as [c|]; [|discriminate]. cbn [option_map].
  rewrite nth_error_map, nth_error_seq.
  destruct (j <? c)%nat; [|discriminate]. cbn. intros H; injection H as <-.
  reflexivity.
Qed.

Lemma clip_by_abs_bound (b x : R) : 0 <= b -> Rabs (clip_by_abs b x) <= b.
Proof.
  intros Hb. apply Rabs_le. unfold clip_by_abs, Rmin, Rmax.
  destruct (Rle_dec (- b) x); destruct (Rle_dec b _); lra.
Qed.

Lemma entry_clip (m : mat) (b : R) i j x :
  0 <= b -> entry (clip_m m b) i j = Some x -> Rabs x <= b.
Proof.
  unfold entry, clip_m. intros Hb. rewrite nth_error_map.
  destruct (nth_error m i) as [r|]; [|discriminate]. cbn [option_map].
  rewrite nth_error_map. destruct (nth_error r j) as [y|]; [|discriminate].
  intros H; injection H as <-. apply clip_by_abs_bound. exact Hb.
Qed.

(** With an identity noise source, applying a fresh noise matrix shaped
    like [m] leaves [m] unchanged. *)
Lemma mmul_identity_noise (noise : Noise) (m : mat) k :
  (forall k i j, noise k i j = 1) ->
  mmul m (fst (gen_epsilon_matrix noise (shape_of m) k)) = m.
Proof.
  intros Hn. unfold mmul, gen_epsilon_matrix, mapi, shape_of. cbn [fst].
  assert (Hrow : forall (r : vec) i j,
             zipw Rmult r (map (noise k i) (seq j (length r))) = r).
  { induction r as [|x r IHr]; intros i j; [reflexivity|].
    cbn [length seq map zipw]. rewrite Hn, Rmult_1_r, IHr. reflexivity. }
  generalize 0%nat at 2 as i.
  induction m as [|r m IH]; intros i; [reflexivity|].
  cbn [map mapi_from zipw]. rewrite IH, Hrow. reflexivity.
Qed.

(** ** One particle step *)

(** The acceleration of a particle step before the noise is applied. *)
Definition pre_noise_acceleration (noise : Noise) (cfg : Config) (st : State)
    (c : nat) : mat :=
  let distances := pdist_matrix (p st) in
  clipped_acceleration cfg
    (fst (calculate_urgency1 noise cfg st distances c))
    (fst (calculate_urgency2 noise cfg st distances (S c)))
    (fst (calculate_urgency3 noise cfg st distances (S (S c)))).

Lemma step_particles_eq (noise : Noise) (cfg : Config) (timestep : R)
    (ret_u : bool) (st : State) (c : nat) :
  step_particles noise cfg timestep ret_u st c =
  let distances := pdist_matrix (p st) in
  let u1 := fst (calculate_urgency1 noise cfg st distances c) in
  let u2 := fst (calculate_urgency2 noise cfg st distances (S c)) in
  let u3 := fst (calculate_urgency3 noise cfg st distances (S (S c))) in
  let a0 := clipped_acceleration cfg u1 u2 u3 in
  let a1 := mmul a0 (fst (gen_epsilon_matrix noise (shape_of a0) (S (S (S c))))) in
  let v3 := clip_m (madd (mscale (v st) (math_pow (v_decay cfg) timestep))
                         (mscale a1 timestep)) (v_max cfg) in
  ((mkState (madd (p st) (mscale v3 timestep)) v3 a1
            (pred_p st) (pred_v st) (pred_a st),
    if ret_u then Some [u1; u2; u3] else None), S (S (S (S c)))).
Proof. reflexivity. Qed.

Lemma mscale_mscale (m : mat) (x y : R) :
  mscale (mscale m x) y = mscale m (x * y).
Proof.
  unfold mscale. rewrite map_map. apply map_ext. intros r.
  rewrite map_map. apply map_ext. intros z. ring.
Qed.

Lemma engine_step_eq (noise : Noise) (cfg : Config) (timestep : R)
    (ret_u : bool) (st : State) (c : nat) :
  engine_step noise cfg timestep ret_u st c =
  let (r, c1) := step_particles noise cfg timestep ret_u st c in
  let (st2, c2) := step_predators noise timestep (fst r) c1 in
  ((st2, snd r), c2).
Proof.
  unfold engine_step, bind, ret.
  destruct (step_particles noise cfg timestep ret_u st c) as [r c1].
  destruct (step_predators noise timestep (fst r) c1). reflexivity.
Qed.

(** The predator step leaves the particles alone. *)
Lemma step_predators_a (noise : Noise) (timestep : R) (st : State) (c : nat) :
  a (fst (step_predators noise timestep st c)) = a st.
Proof. reflexivity. Qed.

(** With an identity noise source, the acceleration an iteration stores is
    the sum of the urgencies it reports, rescaled and clipped. *)
Lemma engine_step_acceleration (noise : Noise) (cfg : Config) (timestep : R)
    (st : State) (c : nat) :
  (forall k i j, noise k i j = 1) ->
  let r := engine_step noise cfg timestep true st c in
  exists u1 u2 u3, snd (fst r) = Some [u1; u2; u3] /\
    a (fst (fst r)) =
    clip_m (mscale (madd (madd u1 u2) u3) (a_max cfg / u_max cfg)) (a_max cfg).
Proof.
  intros Hn. cbv zeta. rewrite engine_step_eq, step_particles_eq.
  cbv beta iota zeta. cbn [fst snd].
  lazymatch goal with
  | |- context [step_predators noise timestep ?s ?k] =>
      pose proof (step_predators_a noise timestep s k) as Ha;
      destruct (step_predators noise timestep s k) as [st2 c2]
  end.
  cbn [fst snd] in *.
  do 3 eexists. split; [reflexivity|].
  rewrite Ha. cbn [a].
  rewrite mmul_identity_noise by exact Hn.
  unfold clipped_acceleration. rewrite mscale_mscale.
  f_equal. f_equal. unfold Rdiv. ring.
Qed.

(** The acceleration stored in [st] is the element-wise sum of the three
    urgency fields [us], times [a_max / u_max], clipped to [a_max]. *)
Definition acc_matches (cfg : Config) (st : State) (us : list mat) : Prop :=
  exists u1 u2 u3, us = [u1; u2; u3] /\
    a st = clip_m (mscale (madd (madd u1 u2) u3) (a_max cfg / u_max cfg))
                  (a_max cfg).

Lemma Forall2_tl_snoc {A B : Type} (P : A -> B -> Prop) l1 l2 x y :
  length l1 = length l2 -> Forall2 P (tl l1) (tl l2) -> P x y ->
  Forall2 P (tl (l1 ++ [x])) (tl (l2 ++ [y])).
Proof.
  destruct l1 as [|x1 l1], l2 as [|y2 l2]; cbn; intros Hl HF HP;
    try discriminate; [constructor|].
  apply Forall2_app; [exact HF|]. constructor; [exact HP|constructor].
Qed.

Lemma Forall2_nth_error' {A B : Type} (P : A -> B -> Prop) l1 l2 n x :
  Forall2 P l1 l2 -> nth_error l1 n = Some x ->
  exists y, nth_error l2 n = Some y /\ P x y.
Proof.
  intros HF. revert n. induction HF as [|x1 y1 l1 l2 HP HF IH]; intros n Hn.
  - destruct n; discriminate.
  - destruct n as [|n]; cbn in Hn |- *.
    + injection Hn as <-. eauto.
    + apply IH. exact Hn.
Qed.

Lemma run_loop_acc (noise : Noise) (cfg : Config) (timestep : R) (skip : nat) :
  (forall k i j, noise k i j = 1) ->
  forall k it st sts uvs c,
  length sts = length uvs -> Forall2 (acc_matches cfg) (tl sts) (tl uvs) ->
  let r := fst (fst (run_loop noise cfg timestep skip true k it st sts uvs c)) in
  length (fst r) = length (snd r) /\
  Forall2 (acc_matches cfg) (tl (fst r)) (tl (snd r)).
Proof.
  intros Hn k. induction k as [|k IH]; intros it st sts uvs c Hl HF; cbv zeta.
  - cbn. auto.
  - rewrite run_loop_S.
    pose proof (engine_step_acceleration noise cfg timestep st c Hn) as Hs.
    destruct (engine_step noise cfg timestep true st c) as [r c1].
    cbv zeta in Hs. cbn [fst snd] in Hs.
    destruct Hs as (u1 & u2 & u3 & Hu & Ha).
    destruct (skip <=? it)%nat.
    + apply IH.
      * rewrite !length_app. cbn. lia.
      * rewrite Hu. apply Forall2_tl_snoc; [exact Hl|exact HF|].
        exists u1, u2, u3. auto.
    + apply IH; assumption.
Qed.

(** C4: with [return_urgency_vectors = true] and an identity noise source,
    for every recorded index [k >= 1], [urgencies[k][0] + urgencies[k][1]
    + urgencies[k][2]], times [a_max / u_max] and clipped element-wise to
    [[-a_max, a_max]], is the acceleration stored in [states[k]]. *)
Theorem urgencies_roundtrip (noise : Noise) (cfg : Config) (timestep : R)
    (iterations skip : nat) (st : State) (c : nat) :
  (forall k i j, noise k i j = 1) ->
  let res := fst (fst (run noise cfg timestep iterations skip true st c)) in
  forall k sk, (1 <= k)%nat -> nth_error (states res) k = Some sk ->
  exists us u1 u2 u3, urgencies res = Some us /\
    nth_error us k = Some [u1; u2; u3] /\
    a sk = clip_m (mscale (madd (madd u1 u2) u3) (a_max cfg / u_max cfg))
                  (a_max cfg).
Proof.
  intros Hn res k sk Hk Hsk. subst res.
  rewrite run_unfold in Hsk |- *.
  pose proof (run_loop_acc noise cfg timestep skip Hn iterations 1 st
                (fst (initial_record st skip)) (snd (initial_record st skip)) c)
    as H.
  destruct (run_loop _ _ _ _ _ _ _ _ _ _ c) as [[[sts uvs] st'] c'].
  cbn [fst snd states urgencies] in *.
  destruct H as [Hl HF].
  { unfold initial_record. destruct (0 <? skip)%nat; reflexivity. }
  { unfold initial_record. destruct (0 <? skip)%nat; constructor. }
  destruct k as [|k]; [lia|].
  destruct sts as [|s0 sts]; [destruct k; discriminate|].
  destruct uvs as [|us0 uvs]; [discriminate|].
  cbn [tl nth_error] in HF, Hsk |- *.
  destruct (Forall2_nth_error' _ _ _ _ _ HF Hsk) as (us & Hus & u1 & u2 & u3 & -> & Ha).
  exists (us0 :: uvs), u1, u2, u3. auto.
Qed.

(** ** Claims about one particle step *)

(** A one-particle, predator-free state in one dimension, and a config
    with the given [a_max] and [v_max]. *)
Definition one_particle : State := mkState [[0]] [[0]] [[0]] [] [] [].

Definition cfg_bounds (amax vmax : R) : Config :=
  mkConfig vmax 1 amax 5 1 1 1 1 1 1 [[1; 1; 1]].

(** C6 (amended, for [a_max >= 0]): in a particle step the acceleration is
    clipped to [[-a_max, a_max]] before the noise is applied, and each
    stored component is the clipped component times the noise factor drawn
    for that element (the fourth draw of the step), so its absolute value
    is at most [a_max] times that factor's. *)
Theorem accel_clipped_before_noise (noise : Noise) (cfg : Config)
    (timestep : R) (ret_u : bool) (st : State) (c : nat) :
  0 <= a_max cfg ->
  (forall i j y, entry (pre_noise_acceleration noise cfg st c) i j = Some y ->
     Rabs y <= a_max cfg) /\
  (forall i j x,
     entry (a (fst (fst (step_particles noise cfg timestep ret_u st c)))) i j
       = Some x ->
     exists y, entry (pre_noise_acceleration noise cfg st c) i j = Some y /\
       x = y * noise (S (S (S c))) i j /\
       Rabs x <= a_max cfg * Rabs (noise (S (S (S c))) i j)).
Proof.
  intros Hb.
  assert (Hpre : forall i j y,
             entry (pre_noise_acceleration noise cfg st c) i j = Some y ->
             Rabs y <= a_max cfg).
  { intros i j y. unfold pre_noise_acceleration, clipped_acceleration.
    apply entry_clip. exact Hb. }
  split; [exact Hpre|].
  intros i j x Hx. rewrite step_particles_eq in Hx. cbv zeta in Hx.
  cbn [fst a] in Hx.
  apply entry_mmul in Hx as (y & z & Hy & Hz & ->).
  apply entry_gen in Hz. subst z.
  exists y. split; [exact Hy|]. split; [reflexivity|].
  rewrite Rabs_mult. apply Rmult_le_compat_r; [apply Rabs_pos|].
  apply (Hpre i j). exact Hy.
Qed.

(** C6 as stated fails for a negative [a_max]: no component can have an
    absolute value below a negative bound. *)
Lemma accel_clip_negative_bound :
  ~ (forall noise cfg st c i j y,
        entry (pre_noise_acceleration noise cfg st c) i j = Some y ->
        Rabs y <= a_max cfg).
Proof.
  intros H.
  specialize (H (const_noise 1) (cfg_bounds (-1) 1) one_particle 0%nat 0%nat 0%nat
                _ eq_refl).
  cbn [a_max cfg_bounds] in H.
  match type of H with Rabs ?y <= _ => pose proof (Rabs_pos y) end. lra.
Qed.

(** C7 (amended, for [v_max >= 0]): after a particle step (decay, then
    [v += a * timestep], then clipping) every velocity component has an
    absolute value at most [v_max], whatever the prior state, the config
    and the noise. *)
Theorem velocity_bounded_after_step (noise : Noise) (cfg : Config)
    (timestep : R) (ret_u : bool) (st : State) (c : nat) :
  0 <= v_max cfg ->
  forall i j x,
    entry (v (fst (fst (step_particles noise cfg timestep ret_u st c)))) i j
      = Some x ->
    Rabs x <= v_max cfg.
Proof.
  intros Hb i j x Hx. rewrite step_particles_eq in Hx. cbv zeta in Hx.
  cbn [fst v] in Hx. exact (entry_clip _ _ _ _ _ Hb Hx).
Qed.

(** C7 as stated fails for a negative [v_max]. *)
Lemma velocity_clip_negative_bound :
  ~ (forall noise cfg timestep ret_u st c i j x,
        entry (v (fst (fst (step_particles noise cfg timestep ret_u st c)))) i j
          = Some x ->
        Rabs x <= v_max cfg).
Proof.
  intros H.
  specialize (H (const_noise 1) (cfg_bounds 1 (-1)) 1 false one_particle
                0%nat 0%nat 0%nat _ eq_refl).
  cbn [v_max cfg_bounds] in H.
  match type of H with Rabs ?y <= _ => pose proof (Rabs_pos y) end. lra.
Qed.

(** ** Range masks and weights *)

Lemma in_range_true (b d : R) : in_range b d = true <-> 0 < d <= b.
Proof.
  unfold in_range. destruct (Rlt_dec 0 d), (Rle_dec d b); split; intros H;
    try discriminate; try lra; reflexivity.
Qed.

Lemma in_range_zero (b : R) : in_range b 0 = false.
Proof. unfold in_range. destruct (Rlt_dec 0 0); [lra|reflexivity]. Qed.

Lemma repulsion_weight_out (b d : R) :
  ~ (0 < d <= b) -> repulsion_weight b d = 0.
Proof.
  intros H. unfold repulsion_weight.
  destruct (in_range b d) eqn:E; [apply in_range_true in E; contradiction|].
  reflexivity.
Qed.

Lemma in_mapi_from {A B : Type} (f : nat -> A -> B) k l x :
  In x (mapi_from f k l) -> exists j y, In y l /\ x = f j y.
Proof.
  revert k. induction l as [|y l IH]; intros k Hin; [destruct Hin|].
  destruct Hin as [<-|Hin].
  - exists k, y. split; [left|]; reflexivity.
  - destruct (IH (S k) Hin) as (j & z & Hz & ->). exists j, z.
    split; [right; exact Hz|reflexivity].
Qed.

Lemma pdist_row (pm : mat) i pi :
  nth_error pm i = Some pi ->
  nth_error (pdist_matrix pm) i =
  Some (mapi (fun j pj => if Nat.eqb i j then 0 else euclid pi pj) pm).
Proof.
  intros H. unfold pdist_matrix, mapi. rewrite nth_error_mapi_from, H.
  reflexivity.
Qed.

Lemma Forall_zipw {A B C : Type} (P : A -> Prop) (Q : B -> Prop) (S : C -> Prop)
    (f : A -> B -> C) l1 l2 :
  (forall x y, P x -> Q y -> S (f x y)) ->
  Forall P l1 -> Forall Q l2 -> Forall S (zipw f l1 l2).
Proof.
  intros Hf H1. revert l2. induction H1 as [|x l1 Hx H1 IH]; intros l2 H2.
  - constructor.
  - destruct H2 as [|y l2 Hy H2]; constructor; auto.
Qed.

(** A row of zero weights gives the zero vector. *)
Lemma vecmat_zero (w : vec) (m : mat) (d : nat) :
  Forall (fun x => x = 0) w -> Forall (fun x => x = 0) (vecmat w m d).
Proof.
  unfold vecmat. revert m. induction w as [|w0 w IH]; intros m Hw.
  - cbn. apply Forall_forall. intros x Hx. apply repeat_spec in Hx. exact Hx.
  - destruct m as [|r m].
    + cbn. apply Forall_forall. intros x Hx. apply repeat_spec in Hx. exact Hx.
    + inversion Hw as [|? ? Hw0 Hw']; subst. cbn [combine fold_right].
      apply (Forall_zipw (fun x => x = 0) (fun x => x = 0)).
      * intros x y -> ->. ring.
      * apply Forall_map, Forall_forall. intros x _. ring.
      * apply IH. exact Hw'.
Qed.

(** The row [i] of a repulsion urgency is zero when the row [i] of its
    weight matrix is. *)
Lemma repulsion_row_zero (w : mat) (dv : list mat) (d : nat) (eps : mat)
    (k : R) (uwm : mat) (col i : nat) (wi r : vec) :
  nth_error w i = Some wi -> Forall (fun x => x = 0) wi ->
  nth_error (weigh (mmul (batched_matmul w dv d) eps) k uwm col) i = Some r ->
  Forall (fun x => x = 0) r.
Proof.
  intros Hw Hz Hr. unfold weigh in Hr.
  apply nth_error_zipw in Hr as (r1 & wr & Hr1 & _ & ->).
  unfold mmul in Hr1. apply nth_error_zipw in Hr1 as (r2 & er & Hr2 & _ & ->).
  unfold batched_matmul in Hr2.
  apply nth_error_zipw in Hr2 as (wi' & dvi & Hwi & _ & ->).
  rewrite Hw in Hwi. injection Hwi as <-.
  apply Forall_map.
  apply (Forall_zipw (fun x => x = 0) (fun _ => True)).
  - intros x y -> _. ring.
  - apply vecmat_zero. exact Hz.
  - apply Forall_forall. auto.
Qed.

Lemma repulsion_weight_zero (b : R) : repulsion_weight b 0 = 0.
Proof. unfold repulsion_weight. rewrite in_range_zero. reflexivity. Qed.

(** ** Claims about the urgencies *)

(** C9: a particle with no other particle at a distance in [(0, u2_dopt]]
    gets a zero urgency-2 vector, and a particle with no predator at a
    distance in [(0, u3_dmax]] gets a zero urgency-3 vector. *)
Theorem no_neighbor_no_repulsion (noise : Noise) (cfg : Config) (st : State)
    (c : nat) :
  (forall i pi r, nth_error (p st) i = Some pi ->
     (forall pj, In pj (p st) -> ~ (0 < euclid pi pj <= u2_dopt cfg)) ->
     nth_error (fst (calculate_urgency2 noise cfg st (pdist_matrix (p st)) c)) i
       = Some r ->
     Forall (fun x => x = 0) r) /\
  (forall i pi r, nth_error (p st) i = Some pi ->
     (forall q, In q (pred_p st) -> ~ (0 < euclid pi q <= u3_dmax cfg)) ->
     nth_error (fst (calculate_urgency3 noise cfg st (pdist_matrix (p st)) c)) i
       = Some r ->
     Forall (fun x => x = 0) r).
Proof.
  split.
  - intros i pi r Hpi Hfar Hr.
    unfold calculate_urgency2, bind, ret, gen_epsilon_matrix in Hr.
    cbn [fst] in Hr.
    eapply repulsion_row_zero; [|idtac|exact Hr].
    + unfold weights2. rewrite nth_error_map, (pdist_row _ _ _ Hpi). reflexivity.
    + apply Forall_forall. intros x Hx. apply in_map_iff in Hx as (d & <- & Hd).
      apply in_mapi_from in Hd as (j & pj & Hpj & ->).
      destruct (Nat.eqb i j).
      * apply repulsion_weight_zero.
      * apply repulsion_weight_out. apply Hfar. exact Hpj.
  - intros i pi r Hpi Hfar Hr.
    unfold calculate_urgency3, bind, ret, gen_epsilon_matrix in Hr.
    cbn [fst] in Hr.
    eapply repulsion_row_zero; [|idtac|exact Hr].
    + unfold weights3, cdist. rewrite nth_error_map, nth_error_map, Hpi.
      reflexivity.
    + apply Forall_forall. intros x Hx. apply in_map_iff in Hx as (d & <- & Hd).
      apply in_map_iff in Hd as (q & <- & Hq).
      apply repulsion_weight_out. apply Hfar. exact Hq.
Qed.

(** C8: pairs at distance exactly 0 are masked out of all three urgencies:
    the particle distance matrix has a zero diagonal, an entry 0 of a
    distance matrix gets weight 0 in [weights1], [weights2] and [weights3],
    and every division of an in-range pair has a non-zero divisor. *)
Theorem zero_distance_masked (cfg : Config) :
  (forall pm i pi, nth_error pm i = Some pi ->
     entry (pdist_matrix pm) i i = Some 0) /\
  (forall distances i j, entry distances i j = Some 0 ->
     entry (weights1 cfg distances) i j = Some 0 /\
     entry (weights2 cfg distances) i j = Some 0 /\
     entry (weights3 cfg distances) i j = Some 0) /\
  (forall row d, In d row -> in_range (d_max cfg) d = true ->
     INR (count_occ Bool.bool_dec (map (in_range (d_max cfg)) row) true) <> 0) /\
  (forall d, in_range (u2_dopt cfg) d = true -> u2_dopt cfg * d <> 0) /\
  (forall d, in_range (u3_dmax cfg) d = true -> u3_dmax cfg * d <> 0).
Proof.
  assert (Hden : forall b d, in_range b d = true -> b * d <> 0).
  { intros b d H. apply in_range_true in H.
    apply Rmult_integral_contrapositive. split; lra. }
  split; [|split; [|split; [|split]]].
  - intros pm i pi H. unfold entry. rewrite (pdist_row _ _ _ H).
    unfold mapi. rewrite nth_error_mapi_from, H. cbn [option_map].
    rewrite Nat.eqb_refl. reflexivity.
  - intros ds i j H. unfold entry in *.
    unfold weights1, weights2, weights3. rewrite !nth_error_map.
    destruct (nth_error ds i) as [row|]; [|discriminate]. cbn [option_map].
    rewrite !nth_error_map, H. cbn [option_map].
    rewrite in_range_zero, !repulsion_weight_zero. auto.
  - intros row d Hin Hr. apply not_0_INR.
    assert (count_occ Bool.bool_dec (map (in_range (d_max cfg)) row) true > 0)%nat;
      [|lia].
    apply count_occ_In. rewrite <- Hr. apply in_map. exact Hin.
  - intros d. apply Hden.
  - intros d. apply Hden.
Qed.

(** Two particles on a line, 10 apart, with a sight distance of 5. *)
Definition two_far : State := mkState [[0]; [10]] [[0]; [0]] [[0]; [0]] [] [] [].

Definition cfg_sight5 : Config :=
  mkConfig 1 1 1 5 1 1 1 1 1 1 [[1; 1; 1]; [1; 1; 1]].

Lemma euclid_0_10 : euclid [0] [10] = 10 /\ euclid [10] [0] = 10.
Proof.
  unfold euclid. cbn [zipw fold_right].
  split; [replace ((0 - 10) * (0 - 10) + 0) with (10 * 10) by ring
         |replace ((10 - 0) * (10 - 0) + 0) with (10 * 10) by ring];
    apply sqrt_square; lra.
Qed.

Lemma in_range_out (b d : R) : b < d -> in_range b d = false.
Proof.
  intros H. destruct (in_range b d) eqn:E; [|reflexivity].
  apply in_range_true in E. lra.
Qed.

(** C1 fails: the particle at 10 has no neighbour in sight, yet its
    urgency-1 vector is [-10], a pull toward the origin, because its
    all-zero weight row gives the barycenter 0. *)
Theorem isolated_particle_pulled_to_origin :
  fst (calculate_urgency1 (const_noise 1) cfg_sight5 two_far
         (pdist_matrix (p two_far)) 0%nat) = [[0]; [-10]].
Proof.
  destruct euclid_0_10 as [E1 E2].
  unfold calculate_urgency1, bind, ret, gen_epsilon_matrix, weights1,
    pdist_matrix, mapi.
  cbn -[euclid in_range Rdiv INR].
  rewrite E1, E2, in_range_zero, (in_range_out 5 10) by lra.
  cbn -[Rdiv INR].
  unfold uw_col, const_noise. cbn [nth].
  f_equal; [|f_equal]; f_equal; ring.
Qed.

(** ** Claims about the predator step *)

(** An iteration multiplies the stored predator acceleration in place by
    the fifth noise draw of the iteration. *)
Lemma engine_step_pred_a (noise : Noise) (cfg : Config) (timestep : R)
    (ret_u : bool) (st : State) (c : nat) :
  pred_a (fst (fst (engine_step noise cfg timestep ret_u st c))) =
  mmul (pred_a st)
       (fst (gen_epsilon_matrix noise (shape_of (pred_a st)) (S (S (S (S c)))))) /\
  snd (engine_step noise cfg timestep ret_u st c) = S (S (S (S (S c)))).
Proof.
  rewrite engine_step_eq, step_particles_eq. cbv beta iota zeta.
  split; reflexivity.
Qed.

(** With an identity noise source, [pred_a] never changes. *)
Lemma pred_a_identity_noise (noise : Noise) (cfg : Config) (timestep : R)
    (ret_u : bool) (n : nat) :
  (forall k i j, noise k i j = 1) ->
  forall st c, pred_a (fst (steps noise cfg timestep ret_u n st c)) = pred_a st.
Proof.
  intros Hn. induction n as [|n IH]; intros st c; [reflexivity|].
  rewrite steps_S.
  pose proof (engine_step_pred_a noise cfg timestep ret_u st c) as [Ha _].
  destruct (engine_step noise cfg timestep ret_u st c) as [r c1].
  cbn [fst] in Ha. rewrite IH, Ha. apply mmul_identity_noise. exact Hn.
Qed.

(** One particle and one predator with acceleration 1. *)
Definition with_predator : State := mkState [[0]] [[0]] [[0]] [[0]] [[0]] [[1]].

(** C2 fails: with every noise factor equal to 2, the predator acceleration
    after the second step is [1 * 2 * 2 = 4], not the baseline times the
    fresh factor of that step, [1 * 2 = 2]: [pred_a *= noise] compounds. *)
Theorem predator_noise_compounds :
  pred_a (fst (steps (const_noise 2) cfg_sight5 1 false 2 with_predator 0%nat))
  = [[4]].
Proof.
  rewrite steps_S.
  pose proof (engine_step_pred_a (const_noise 2) cfg_sight5 1 false
                with_predator 0%nat) as [Ha1 Hc1].
  destruct (engine_step (const_noise 2) cfg_sight5 1 false with_predator 0%nat)
    as [r c1].
  cbn [fst snd] in Ha1, Hc1. subst c1.
  rewrite steps_S.
  pose proof (engine_step_pred_a (const_noise 2) cfg_sight5 1 false (fst r) 5%nat)
    as [Ha2 _].
  destruct (engine_step (const_noise 2) cfg_sight5 1 false (fst r) 5%nat)
    as [r2 c2].
  cbn [fst steps ret] in Ha2 |- *. rewrite Ha2, Ha1.
  cbn. f_equal. f_equal. unfold const_noise. ring.
Qed.

(** ** Claim about engine construction *)

Lemma shape_neq_true (s1 s2 : list nat) :
  Construction.shape_neq s1 s2 = true <-> s1 <> s2.
Proof.
  unfold Construction.shape_neq.
  destruct (list_eq_dec Nat.eq_dec s1 s2); split; intros H; congruence.
Qed.

(** C5: for a particle position array with at least one dimension (so that
    [n = p.shape[0]] exists), construction raises the shape error carrying
    the four shapes exactly when [p.shape != v.shape], [p.shape != a.shape]
    or [uw.shape != (n, 3)], and otherwise yields the engine, whatever the
    predator arrays and the element values. *)
Theorem engine_init_shape_check (st : Construction.State)
    (cfg : Construction.Config) (n : nat) (rest : list nat) :
  Construction.shape (Construction.p st) = n :: rest ->
  let ps := Construction.shape (Construction.p st) in
  let bad := ps <> Construction.shape (Construction.v st) \/
             ps <> Construction.shape (Construction.a st) \/
             Construction.shape (Construction.uw cfg) <> [n; 3%nat] in
  (bad -> Construction.engine_init st cfg =
          Construction.Raise (Construction.ValueError ps
            (Construction.shape (Construction.v st))
            (Construction.shape (Construction.a st))
            (Construction.shape (Construction.uw cfg)))) /\
  (~ bad -> Construction.engine_init st cfg =
            Construction.Ok (Construction.mkEngine st cfg 0)).
Proof.
  intros Hp ps bad. subst ps bad. unfold Construction.engine_init.
  destruct (Construction.shape_neq (Construction.shape (Construction.p st))
              (Construction.shape (Construction.v st))) eqn:E1;
  [|destruct (Construction.shape_neq (Construction.shape (Construction.p st))
                (Construction.shape (Construction.a st))) eqn:E2;
    [|rewrite Hp;
      destruct (Construction.shape_neq (Construction.shape (Construction.uw cfg))
                  [n; 3%nat]) eqn:E3]].
  - apply shape_neq_true in E1. split; [reflexivity|]. intros H. tauto.
  - apply shape_neq_true in E2. split; [reflexivity|]. intros H. tauto.
  - apply shape_neq_true in E3. split; [reflexivity|]. intros H. tauto.
  - assert (N1 : ~ Construction.shape (Construction.p st) <>
                   Construction.shape (Construction.v st))
      by (rewrite <- shape_neq_true; congruence).
    assert (N2 : ~ Construction.shape (Construction.p st) <>
                   Construction.shape (Construction.a st))
      by (rewrite <- shape_neq_true; congruence).
    assert (N3 : ~ Construction.shape (Construction.uw cfg) <> [n; 3%nat])
      by (rewrite <- shape_neq_true; congruence).
    rewrite Hp in N1, N2.
    split; [intros [H|[H|H]]; contradiction|reflexivity].
Qed.

(** * Witnesses: the claims' hypotheses hold at concrete inputs *)

Lemma run_states_length_witness :
  (1 <= 3)%nat /\
  (length (states (fst (fst (run (const_noise 1) (cfg_bounds 1 1) 1 3 1 false
                                 one_particle 0%nat))))
     = (if (1 =? 0)%nat then 3 + 1 else 3 - 1 + 1)%nat
   /\ states (fst (fst (run (const_noise 1) (cfg_bounds 1 1) 1 5 5 false
                            one_particle 0%nat)))
      = [fst (steps (const_noise 1) (cfg_bounds 1 1) 1 false 5 one_particle 0%nat)]).
Proof.
  split; [lia|].
  apply (run_states_length (const_noise 1) (cfg_bounds 1 1) 1 false 3 1
           one_particle 0%nat).
  lia.
Defined.

Lemma run_skip_beyond_iterations_witness :
  (0 < 5)%nat /\ (3 < 5)%nat /\
  (let r := run (const_noise 1) (cfg_bounds 1 1) 1 3 5 true one_particle 0%nat in
   states (fst (fst r)) = []
   /\ urgencies (fst (fst r)) = (if true then Some [] else None)
   /\ (snd (fst r), snd r)
      = steps (const_noise 1) (cfg_bounds 1 1) 1 true 3 one_particle 0%nat).
Proof.
  split; [lia|]. split; [lia|].
  apply (run_skip_beyond_iterations (const_noise 1) (cfg_bounds 1 1) 1 true 3 5
           one_particle 0%nat); lia.
Defined.

Lemma urgencies_roundtrip_witness :
  (forall k i j, const_noise 1 k i j = 1) /\
  exists sk,
    nth_error (states (fst (fst (run (const_noise 1) (cfg_bounds 1 1) 1 2 0 true
                                    one_particle 0%nat)))) 1 = Some sk /\
    exists us u1 u2 u3,
      urgencies (fst (fst (run (const_noise 1) (cfg_bounds 1 1) 1 2 0 true
                              one_particle 0%nat))) = Some us /\
      nth_error us 1 = Some [u1; u2; u3] /\
      a sk = clip_m (mscale (madd (madd u1 u2) u3)
                            (a_max (cfg_bounds 1 1) / u_max (cfg_bounds 1 1)))
                    (a_max (cfg_bounds 1 1)).
Proof.
  split; [intros; reflexivity|].
  eexists. split; [reflexivity|].
  apply (urgencies_roundtrip (const_noise 1) (cfg_bounds 1 1) 1 2 0
           one_particle 0%nat); [intros; reflexivity|lia|reflexivity].
Defined.

Lemma accel_clipped_before_noise_witness :
  0 <= a_max (cfg_bounds 1 1) /\
  (forall i j y,
     entry (pre_noise_acceleration (const_noise 1) (cfg_bounds 1 1) one_particle
              0%nat) i j = Some y ->
     Rabs y <= a_max (cfg_bounds 1 1)) /\
  (forall i j x,
     entry (a (fst (fst (step_particles (const_noise 1) (cfg_bounds 1 1) 1 false
                           one_particle 0%nat)))) i j = Some x ->
     exists y, entry (pre_noise_acceleration (const_noise 1) (cfg_bounds 1 1)
                        one_particle 0%nat) i j = Some y /\
       x = y * const_noise 1 3%nat i j /\
       Rabs x <= a_max (cfg_bounds 1 1) * Rabs (const_noise 1 3%nat i j)).
Proof.
  split; [cbn; lra|].
  apply (accel_clipped_before_noise (const_noise 1) (cfg_bounds 1 1) 1 false
           one_particle 0%nat).
  cbn. lra.
Defined.

Lemma velocity_bounded_after_step_witness :
  0 <= v_max (cfg_bounds 1 1) /\
  (forall i j x,
     entry (v (fst (fst (step_particles (const_noise 1) (cfg_bounds 1 1) 1 false
                           one_particle 0%nat)))) i j = Some x ->
     Rabs x <= v_max (cfg_bounds 1 1)).
Proof.
  split; [cbn; lra|].
  apply (velocity_bounded_after_step (const_noise 1) (cfg_bounds 1 1) 1 false
           one_particle 0%nat).
  cbn. lra.
Defined.

(** Two particles in one dimension, no predator, consistent shapes. *)
Definition arr (sh : list nat) : Construction.Arr := Construction.mkArr sh [].

Definition shapes_ok : Construction.State :=
  Construction.mkState (arr [2; 1]%nat) (arr [2; 1]%nat) (arr [2; 1]%nat)
    (arr [0; 1]%nat) (arr [0; 1]%nat) (arr [0; 1]%nat).

Definition cfg_uw (sh : list nat) : Construction.Config :=
  Construction.mkConfig 1 1 1 5 1 1 1 1 1 1 (arr sh).

Lemma engine_init_shape_check_witness :
  Construction.shape (Construction.p shapes_ok) = 2%nat :: [1%nat] /\
  (let ps := Construction.shape (Construction.p shapes_ok) in
   let bad := ps <> Construction.shape (Construction.v shapes_ok) \/
              ps <> Construction.shape (Construction.a shapes_ok) \/
              Construction.shape (Construction.uw (cfg_uw [2; 2]%nat))
                <> [2%nat; 3%nat] in
   (bad -> Construction.engine_init shapes_ok (cfg_uw [2; 2]%nat) =
           Construction.Raise (Construction.ValueError ps
             (Construction.shape (Construction.v shapes_ok))
             (Construction.shape (Construction.a shapes_ok))
             (Construction.shape (Construction.uw (cfg_uw [2; 2]%nat))))) /\
   (~ bad -> Construction.engine_init shapes_ok (cfg_uw [2; 2]%nat) =
             Construction.Ok (Construction.mkEngine shapes_ok (cfg_uw [2; 2]%nat) 0))).
Proof.
  split; [reflexivity|].
  apply (engine_init_shape_check shapes_ok (cfg_uw [2; 2]%nat) 2 [1%nat]).
  reflexivity.
Defined.

Lemma zero_distance_masked_witness :
  nth_error [[0]; [10]] 1 = Some [10] /\
  entry (pdist_matrix [[0]; [10]]) 1 1 = Some 0 /\
  entry (pdist_matrix [[0]; [10]]) 0 0 = Some 0 /\
  (entry (weights2 cfg_sight5 (pdist_matrix [[0]; [10]])) 0 0 = Some 0).
Proof.
  split; [reflexivity|]. split.
  - apply (proj1 (zero_distance_masked cfg_sight5) [[0]; [10]] 1%nat [10]).
    reflexivity.
  - split.
    + apply (proj1 (zero_distance_masked cfg_sight5) [[0]; [10]] 0%nat [0]).
      reflexivity.
    + apply (proj1 (proj2 (zero_distance_masked cfg_sight5))
               (pdist_matrix [[0]; [10]]) 0%nat 0%nat).
      reflexivity.
Defined.

Lemma no_neighbor_no_repulsion_witness :
  nth_error (p two_far) 1 = Some [10] /\
  (forall pj, In pj (p two_far) -> ~ (0 < euclid [10] pj <= u2_dopt cfg_sight5)) /\
  exists r,
    nth_error (fst (calculate_urgency2 (const_noise 1) cfg_sight5 two_far
                      (pdist_matrix (p two_far)) 0%nat)) 1 = Some r /\
    Forall (fun x => x = 0) r.
Proof.
  assert (Hfar : forall pj, In pj (p two_far) ->
                   ~ (0 < euclid [10] pj <= u2_dopt cfg_sight5)).
  { intros pj Hpj. cbn [p two_far u2_dopt cfg_sight5 In] in Hpj |- *.
    destruct Hpj as [<-|[<-|[]]].
    - rewrite (proj2 euclid_0_10). lra.
    - unfold euclid. cbn [zipw fold_right].
      replace ((10 - 10) * (10 - 10) + 0) with 0 by ring.
      rewrite sqrt_0. lra. }
  split; [reflexivity|]. split; [exact Hfar|].
  eexists. split; [reflexivity|].
  apply (proj1 (no_neighbor_no_repulsion (const_noise 1) cfg_sight5 two_far 0%nat)
           1%nat [10]); [reflexivity|exact Hfar|reflexivity].
Defined.

(** * Further properties of the engine *)

(** ** Noise consumption and the [return_urgency_vectors] flag *)

Lemma steps_cursor (noise : Noise) (cfg : Config) (timestep : R) (ret_u : bool)
    (n : nat) :
  forall st c, snd (steps noise cfg timestep ret_u n st c) = (c + 5 * n)%nat.
Proof.
  induction n as [|n IH]; intros st c; [cbn; lia|].
  rewrite steps_S.
  pose proof (engine_step_pred_a noise cfg timestep ret_u st c) as [_ Hc].
  destruct (engine_step noise cfg timestep ret_u st c) as [r c1].
  cbn [snd] in Hc. subst c1. rewrite IH. lia.
Qed.

Lemma engine_step_flag (noise : Noise) (cfg : Config) (timestep : R)
    (st : State) (c : nat) :
  (fst (fst (engine_step noise cfg timestep true st c)),
   snd (engine_step noise cfg timestep true st c)) =
  (fst (fst (engine_step noise cfg timestep false st c)),
   snd (engine_step noise cfg timestep false st c)).
Proof.
  rewrite !engine_step_eq, !step_particles_eq. cbv beta iota zeta.
  reflexivity.
Qed.

Lemma steps_flag (noise : Noise) (cfg : Config) (timestep : R) (n : nat) :
  forall st c, steps noise cfg timestep true n st c =
               steps noise cfg timestep false n st c.
Proof.
  induction n as [|n IH]; intros st c; [reflexivity|].
  rewrite !steps_S.
  pose proof (engine_step_flag noise cfg timestep st c) as H.
  destruct (engine_step noise cfg timestep true st c) as [r c1].
  destruct (engine_step noise cfg timestep false st c) as [r' c1'].
  cbn [fst snd] in H. injection H as -> ->. apply IH.
Qed.

(** X4: [run] always performs exactly [iterations] steps, whatever
    [skip_initial_states] and [return_urgency_vectors]: the engine ends in
    the state reached by [iterations] steps, and each iteration draws
    exactly five noise matrices (three urgencies, the particle
    acceleration, the predator acceleration). *)
Theorem run_performs_all_steps (noise : Noise) (cfg : Config) (timestep : R)
    (iterations skip : nat) (ret_u : bool) (st : State) (c : nat) :
  snd (fst (run noise cfg timestep iterations skip ret_u st c)) =
    fst (steps noise cfg timestep ret_u iterations st c) /\
  snd (run noise cfg timestep iterations skip ret_u st c) =
    (c + 5 * iterations)%nat.
Proof.
  pose proof (run_final noise cfg timestep ret_u iterations skip st c) as H.
  rewrite <- (steps_cursor noise cfg timestep ret_u iterations st c).
  rewrite <- H. split; reflexivity.
Qed.

(** X5: asking for the urgency vectors does not change the simulation:
    [run] records the same states and ends in the same engine state with
    [return_urgency_vectors] true or false. *)
Theorem run_flag_same_trajectory (noise : Noise) (cfg : Config) (timestep : R)
    (iterations skip : nat) (st : State) (c : nat) :
  states (fst (fst (run noise cfg timestep iterations skip true st c))) =
  states (fst (fst (run noise cfg timestep iterations skip false st c))) /\
  snd (fst (run noise cfg timestep iterations skip true st c)) =
  snd (fst (run noise cfg timestep iterations skip false st c)).
Proof.
  split.
  - rewrite !run_states. f_equal. apply map_ext. intros i.
    rewrite steps_flag. reflexivity.
  - pose proof (run_final noise cfg timestep true iterations skip st c) as H1.
    pose proof (run_final noise cfg timestep false iterations skip st c) as H2.
    rewrite steps_flag in H1. rewrite <- H2 in H1.
    injection H1 as H1 _. exact H1.
Qed.

(** ** What [run] records *)

(** X1: [run] with [iterations = 0] and [skip_initial_states = 0] records
    exactly the initial state, reports (if asked) one all-zero urgency
    array of shape (3, n, d), leaves the engine state unchanged and draws
    no noise. *)
Theorem run_zero_iterations (noise : Noise) (cfg : Config) (timestep : R)
    (ret_u : bool) (st : State) (c : nat) :
  run noise cfg timestep 0 0 ret_u st c =
  ((mkResult [st]
      (if ret_u
       then Some [repeat (repeat (repeat 0 (ncols (p st))) (length (p st))) 3]
       else None), st), c).
Proof. reflexivity. Qed.

(** X2: the states [run] records are, in order, the initial state when
    [skip_initial_states = 0], then the state after step [i] for every
    [i] from [max 1 skip_initial_states] to [iterations]. *)
Theorem run_records_post_step_states (noise : Noise) (cfg : Config)
    (timestep : R) (ret_u : bool) (iterations skip : nat) (st : State) (c : nat) :
  states (fst (fst (run noise cfg timestep iterations skip ret_u st c))) =
  (if (skip =? 0)%nat then [st] else []) ++
  map (fun i => fst (steps noise cfg timestep ret_u i st c))
      (seq (Nat.max 1 skip) (S iterations - Nat.max 1 skip)).
Proof.
  rewrite run_states. unfold initial_record.
  assert (Hf : forall a k, (skip <= a)%nat ->
             filter (fun i => (skip <=? i)%nat) (seq a k) = seq a k).
  { intros a0 k. revert a0. induction k as [|k IH]; intros a0 Ha; [reflexivity|].
    cbn [seq filter].
    replace (skip <=? a0)%nat with true by (symmetry; apply Nat.leb_le; lia).
    rewrite IH by lia. reflexivity. }
  assert (Hs : forall a k m, (a + k <= skip)%nat ->
             filter (fun i => (skip <=? i)%nat) (seq a (k + m)) =
             filter (fun i => (skip <=? i)%nat) (seq (a + k) m)).
  { intros a0 k m. revert a0. induction k as [|k IH]; intros a0 Ha.
    - rewrite Nat.add_0_r. reflexivity.
    - cbn [Nat.add seq filter].
      replace (skip <=? a0)%nat with false by (symmetry; apply Nat.leb_gt; lia).
      rewrite IH by lia.
      replace (a0 + S k)%nat with (S a0 + k)%nat by lia. reflexivity. }
  destruct skip as [|s].
  - change (0 <? 0)%nat with false. change (0 =? 0)%nat with true.
    cbn [fst]. rewrite Hf by lia.
    replace (Nat.max 1 0) with 1%nat by reflexivity.
    replace (S iterations - 1)%nat with iterations by lia. reflexivity.
  - change (0 <? S s)%nat with true. change (S s =? 0)%nat with false.
    cbn [fst app].
    replace (Nat.max 1 (S s)) with (S s) by lia.
    destruct (Nat.le_gt_cases (S s) iterations) as [Hle|Hgt].
    + replace iterations with (s + (iterations - s))%nat at 1 by lia.
      rewrite (Hs 1%nat s) by lia.
      replace (1 + s)%nat with (S s) by lia.
      rewrite Hf by lia. do 2 f_equal; lia.
    + replace (S iterations - S s)%nat with 0%nat by lia. cbn [seq map].
      apply length_zero_iff_nil. rewrite length_map, filter_seq_length. lia.
Qed.

Lemma run_loop_lengths (noise : Noise) (cfg : Config) (timestep : R)
    (skip k : nat) :
  forall it st sts uvs c, length sts = length uvs ->
  let r := fst (fst (run_loop noise cfg timestep skip true k it st sts uvs c)) in
  length (fst r) = length (snd r).
Proof.
  induction k as [|k IH]; intros it st sts uvs c Hl; cbv zeta; [exact Hl|].
  rewrite run_loop_S.
  destruct (engine_step noise cfg timestep true st c) as [r c1].
  destruct (skip <=? it)%nat; apply IH; [|exact Hl].
  rewrite !length_app. cbn. lia.
Qed.

(** X3: [urgencies] is [None] unless the urgency vectors are asked for;
    when they are, there is exactly one urgency array per recorded state,
    so [urgencies[k]] belongs to [states[k]]. *)
Theorem run_urgencies_aligned (noise : Noise) (cfg : Config) (timestep : R)
    (iterations skip : nat) (ret_u : bool) (st : State) (c : nat) :
  let res := fst (fst (run noise cfg timestep iterations skip ret_u st c)) in
  match urgencies res with
  | None => ret_u = false
  | Some us => ret_u = true /\ length us = length (states res)
  end.
Proof.
  cbv zeta. rewrite run_unfold.
  destruct ret_u.
  - pose proof (run_loop_lengths noise cfg timestep skip iterations 1 st
                  (fst (initial_record st skip)) (snd (initial_record st skip)) c)
      as H.
    destruct (run_loop _ _ _ _ _ _ _ _ _ _ c) as [[[sts uvs] st'] c'].
    cbn [fst snd states urgencies] in *. split; [reflexivity|].
    symmetry. apply H.
    unfold initial_record. destruct (0 <? skip)%nat; reflexivity.
  - destruct (run_loop _ _ _ _ _ _ _ _ _ _ c) as [[[sts uvs] st'] c'].
    reflexivity.
Qed.

(** ** The predator step *)

(** The predator fields after an iteration, from those before it and the
    fifth draw of the iteration alone. *)
Lemma engine_step_pred (noise : Noise) (cfg : Config) (timestep : R)
    (ret_u : bool) (st : State) (c : nat) :
  let st' := fst (fst (engine_step noise cfg timestep ret_u st c)) in
  let pa := mmul (pred_a st)
              (fst (gen_epsilon_matrix noise (shape_of (pred_a st)) (S (S (S (S c)))))) in
  pred_a st' = pa /\
  pred_v st' = madd (pred_v st) (mscale pa timestep) /\
  pred_p st' = madd (pred_p st) (mscale (madd (pred_v st) (mscale pa timestep)) timestep) /\
  snd (engine_step noise cfg timestep ret_u st c) = S (S (S (S (S c)))).
Proof.
  cbv zeta. rewrite engine_step_eq, step_particles_eq. cbv beta iota zeta.
  repeat split; reflexivity.
Qed.

(** X6: the predators never depend on the particles: two states with the
    same predators keep the same predators over any number of iterations
    and draw the same noise, whatever their particles. *)
Theorem predators_ignore_particles (noise : Noise) (cfg : Config)
    (timestep : R) (ret_u : bool) (n : nat) (st1 st2 : State) (c : nat) :
  pred_p st1 = pred_p st2 -> pred_v st1 = pred_v st2 ->
  pred_a st1 = pred_a st2 ->
  let r1 := steps noise cfg timestep ret_u n st1 c in
  let r2 := steps noise cfg timestep ret_u n st2 c in
  pred_p (fst r1) = pred_p (fst r2) /\ pred_v (fst r1) = pred_v (fst r2) /\
  pred_a (fst r1) = pred_a (fst r2) /\ snd r1 = snd r2.
Proof.
  revert st1 st2 c. induction n as [|n IH]; intros st1 st2 c Hp Hv Ha.
  - cbv zeta. cbn. auto.
  - cbv zeta. rewrite !steps_S.
    pose proof (engine_step_pred noise cfg timestep ret_u st1 c) as (Ha1 & Hv1 & Hp1 & Hc1).
    pose proof (engine_step_pred noise cfg timestep ret_u st2 c) as (Ha2 & Hv2 & Hp2 & Hc2).
    destruct (engine_step noise cfg timestep ret_u st1 c) as [r1 c1].
    destruct (engine_step noise cfg timestep ret_u st2 c) as [r2 c2].
    cbn [fst snd] in *. subst c1 c2.
    apply IH; congruence.
Qed.

Lemma entry_madd (m1 m2 : mat) i j x :
  entry (madd m1 m2) i j = Some x ->
  exists y z, entry m1 i j = Some y /\ entry m2 i j = Some z /\ x = y + z.
Proof.
  unfold entry. intros H.
  destruct (nth_error (madd m1 m2) i) as [r|] eqn:Er; [|discriminate H].
  unfold madd in Er.
  apply nth_error_zipw in Er as (r1 & r2 & H1 & H2 & ->).
  rewrite H1, H2.
  apply nth_error_zipw in H as (y & z & Hy & Hz & ->). eauto.
Qed.

Lemma entry_mscale (m : mat) (k : R) i j x :
  entry (mscale m k) i j = Some x -> exists y, entry m i j = Some y /\ x = y * k.
Proof.
  unfold entry, mscale. rewrite nth_error_map.
  destruct (nth_error m i) as [r|]; [|discriminate]. cbn [option_map].
  rewrite nth_error_map. destruct (nth_error r j) as [y|]; [|discriminate].
  intros H; injection H as <-. eauto.
Qed.

Lemma entry_same_shape (m1 m2 : mat) i j x :
  shape_of m1 = shape_of m2 -> entry m1 i j = Some x ->
  exists y, entry m2 i j = Some y.
Proof.
  unfold entry, shape_of. revert m2 i.
  induction m1 as [|r1 m1 IH]; intros [|r2 m2] i Hs H; try discriminate.
  - destruct i; discriminate.
  - injection Hs as Hl Hs. destruct i as [|i]; cbn in H |- *.
    + destruct (nth_error r2 j) as [y|] eqn:E; [eauto|].
      apply nth_error_None in E. rewrite <- Hl in E.
      apply nth_error_None in E. congruence.
    + exact (IH m2 i Hs H).
Qed.

(** X7: with an identity noise source the predators move with constant
    acceleration under the semi-implicit Euler scheme of
    [_step_predators]: after [n] iterations each component of [pred_v] is
    [v0 + n*timestep*a0] and each component of [pred_p] is
    [p0 + n*timestep*v0 + n(n+1)/2 * timestep^2 * a0], for predator
    arrays of one shape. *)
Theorem predator_uniform_motion (noise : Noise) (cfg : Config)
    (timestep : R) (ret_u : bool) (st : State) (c : nat) :
  (forall k i j, noise k i j = 1) ->
  shape_of (pred_p st) = shape_of (pred_v st) ->
  shape_of (pred_v st) = shape_of (pred_a st) ->
  forall n i j,
    let st' := fst (steps noise cfg timestep ret_u n st c) in
    (forall x, entry (pred_v st') i j = Some x ->
       exists v0 a0, entry (pred_v st) i j = Some v0 /\
         entry (pred_a st) i j = Some a0 /\ x = v0 + INR n * timestep * a0) /\
    (forall x, entry (pred_p st') i j = Some x ->
       exists p0 v0 a0, entry (pred_p st) i j = Some p0 /\
         entry (pred_v st) i j = Some v0 /\ entry (pred_a st) i j = Some a0 /\
         x = p0 + INR n * timestep * v0
             + INR n * INR (S n) / 2 * (timestep * timestep) * a0).
Proof.
  intros Hn Hpv Hva n i j. cbv zeta.
  assert (Hstep : forall m,
    let sm := fst (steps noise cfg timestep ret_u m st c) in
    let cm := snd (steps noise cfg timestep ret_u m st c) in
    let s' := fst (steps noise cfg timestep ret_u (S m) st c) in
    pred_v s' = madd (pred_v sm) (mscale (pred_a st) timestep) /\
    pred_p s' = madd (pred_p sm) (mscale (pred_v s') timestep)).
  { intros m. cbv zeta. rewrite steps_snoc.
    pose proof (pred_a_identity_noise noise cfg timestep ret_u m Hn st c) as Ha.
    destruct (steps noise cfg timestep ret_u m st c) as [sm cm].
    cbn [fst] in Ha |- *.
    pose proof (engine_step_pred noise cfg timestep ret_u sm cm) as (_ & Hv & Hp & _).
    destruct (engine_step noise cfg timestep ret_u sm cm) as [r c1].
    cbn [fst] in Hv, Hp |- *.
    rewrite mmul_identity_noise in Hv, Hp by exact Hn. rewrite Ha in Hv, Hp.
    split; [exact Hv|]. rewrite Hp, Hv. reflexivity. }
  assert (HV : forall m x,
    entry (pred_v (fst (steps noise cfg timestep ret_u m st c))) i j = Some x ->
    exists v0 a0, entry (pred_v st) i j = Some v0 /\
      entry (pred_a st) i j = Some a0 /\ x = v0 + INR m * timestep * a0).
  { induction m as [|m IH]; intros x Hx.
    - cbn [steps ret fst] in Hx.
      destruct (entry_same_shape _ _ _ _ _ Hva Hx) as [a0 Ha0].
      exists x, a0. split; [exact Hx|]. split; [exact Ha0|]. cbn [INR]. ring.
    - destruct (Hstep m) as [Hv _]. cbv zeta in Hv. rewrite Hv in Hx.
      apply entry_madd in Hx as (y & z & Hy & Hz & ->).
      apply entry_mscale in Hz as (a1 & Ha1 & ->).
      destruct (IH y Hy) as (v0 & a0 & Hv0 & Ha0 & ->).
      rewrite Ha0 in Ha1. injection Ha1 as <-.
      exists v0, a0. split; [exact Hv0|]. split; [exact Ha0|].
      rewrite S_INR. ring. }
  split; [apply HV|].
  induction n as [|n IH]; intros x Hx.
  - cbn [steps ret fst] in Hx.
    destruct (entry_same_shape _ _ _ _ _ Hpv Hx) as [v0 Hv0].
    destruct (entry_same_shape _ _ _ _ _ Hva Hv0) as [a0 Ha0].
    exists x, v0, a0. repeat split; try assumption. cbn [INR]. field.
  - destruct (Hstep n) as [_ Hp]. cbv zeta in Hp. rewrite Hp in Hx.
    apply entry_madd in Hx as (y & z & Hy & Hz & ->).
    apply entry_mscale in Hz as (w & Hw & ->).
    destruct (IH y Hy) as (p0 & v0 & a0 & Hp0 & Hv0 & Ha0 & ->).
    destruct (HV (S n) w Hw) as (v1 & a1 & Hv1 & Ha1 & ->).
    rewrite Hv0 in Hv1. injection Hv1 as <-.
    rewrite Ha0 in Ha1. injection Ha1 as <-.
    exists p0, v0, a0. repeat split; try assumption.
    rewrite !S_INR. field.
Qed.

(** ** Weights of the urgencies *)

Lemma sum_masked (g : R -> bool) (k : R) (row : vec) :
  fold_right Rplus 0 (map (fun d => if g d then k else 0) row) =
  INR (count_occ Bool.bool_dec (map g row) true) * k.
Proof.
  induction row as [|d row IH]; [cbn; ring|].
  cbn [map fold_right count_occ]. rewrite IH.
  destruct (g d); destruct (Bool.bool_dec true true) as [_|E]; try congruence;
    try (destruct (Bool.bool_dec false true); [discriminate|]);
    rewrite ?S_INR; ring.
Qed.

Lemma count_existsb (g : R -> bool) (row : vec) :
  existsb g row = true -> (0 < count_occ Bool.bool_dec (map g row) true)%nat.
Proof.
  induction row as [|d row IH]; [discriminate|].
  cbn [existsb map count_occ]. destruct (g d) eqn:E; cbn.
  - destruct (Bool.bool_dec true true); [lia|congruence].
  - destruct (Bool.bool_dec false true); [discriminate|]. exact IH.
Qed.

(** X8: the weights of the barycenter in [_calculate_urgency1] are, row by
    row, either a probability vector (non-negative, summing to 1) when some
    particle is in range, or all zero when none is. *)
Theorem weights1_rows (cfg : Config) (distances : mat) :
  Forall2 (fun row w =>
      length w = length row /\ Forall (fun x => 0 <= x) w /\
      (if existsb (in_range (d_max cfg)) row
       then fold_right Rplus 0 w = 1
       else Forall (fun x => x = 0) w))
    distances (weights1 cfg distances).
Proof.
  unfold weights1. induction distances as [|row D IH]; constructor; [|exact IH].
  cbv zeta. rewrite length_map. split; [reflexivity|].
  set (g := in_range (d_max cfg)).
  set (cnt := count_occ Bool.bool_dec (map g row) true).
  destruct (existsb g row) eqn:E.
  - pose proof (count_existsb g row E) as Hc. fold cnt in Hc.
    apply lt_0_INR in Hc.
    split.
    + apply Forall_forall. intros x Hx. apply in_map_iff in Hx as (d & <- & _).
      destruct (g d); [|lra]. unfold Rdiv. rewrite Rmult_1_l.
      left. apply Rinv_0_lt_compat. exact Hc.
    + rewrite sum_masked. fold cnt. field. lra.
  - assert (Hz : Forall (fun x => x = 0)
                   (map (fun d => if g d then 1 / INR cnt else 0) row)).
    { apply Forall_forall. intros x Hx. apply in_map_iff in Hx as (d & <- & Hd).
      destruct (g d) eqn:Eg; [|reflexivity].
      assert (existsb g row = true) by (apply existsb_exists; eauto).
      congruence. }
    split; [|exact Hz].
    eapply Forall_impl; [|exact Hz]. intros x ->. lra.
Qed.

(** X9: the repulsion weight of [_calculate_urgency2] and
    [_calculate_urgency3] is non-negative, vanishes at the bound itself,
    and times the distance it weighs ([(b - d) / b] in range) stays in
    [[0, 1)]: each neighbour contributes a displacement shorter than 1. *)
Theorem repulsion_weight_bounds (b d : R) :
  0 <= repulsion_weight b d /\ 0 <= repulsion_weight b d * d < 1 /\
  repulsion_weight b b = 0.
Proof.
  assert (Hb : repulsion_weight b b = 0).
  { unfold repulsion_weight. destruct (in_range b b); [|reflexivity].
    unfold Rdiv. rewrite Rminus_diag, Rmult_0_l. reflexivity. }
  unfold repulsion_weight in *. destruct (in_range b d) eqn:E; [|lra].
  apply in_range_true in E as [Hd Hdb].
  assert (Hw : (b - d) / (b * d) * d = 1 - d / b) by (field; lra).
  assert (Hq : 0 < d / b) by (apply Rdiv_lt_0_compat; lra).
  assert (Hq1 : d / b <= 1).
  { apply (Rmult_le_reg_r b); [lra|]. unfold Rdiv.
    rewrite Rmult_assoc, Rinv_l, Rmult_1_r by lra. lra. }
  rewrite Hw. split; [|lra].
  unfold Rdiv. apply Rmult_le_pos; [lra|].
  left. apply Rinv_0_lt_compat. nra.
Qed.

(** ** Particle displacement *)

(** The predator step leaves the particle positions alone. *)
Lemma engine_step_p (noise : Noise) (cfg : Config) (timestep : R)
    (ret_u : bool) (st : State) (c : nat) :
  p (fst (fst (engine_step noise cfg timestep ret_u st c))) =
  p (fst (fst (step_particles noise cfg timestep ret_u st c))).
Proof.
  unfold engine_step, bind, ret.
  destruct (step_particles noise cfg timestep ret_u st c) as [r c1].
  reflexivity.
Qed.

(** X10: for [v_max >= 0], after [n] iterations every position component
    lies within [n * v_max * |timestep|] of where it started: positions
    move by the clipped velocity times the timestep, once per iteration. *)
Theorem position_drift_bounded (noise : Noise) (cfg : Config)
    (timestep : R) (ret_u : bool) (st : State) (c : nat) :
  0 <= v_max cfg ->
  forall n i j x,
    entry (p (fst (steps noise cfg timestep ret_u n st c))) i j = Some x ->
    exists x0, entry (p st) i j = Some x0 /\
      Rabs (x - x0) <= INR n * (v_max cfg * Rabs timestep).
Proof.
  intros Hb n. induction n as [|n IH]; intros i j x Hx.
  - cbn [steps ret fst] in Hx. exists x. split; [exact Hx|].
    rewrite Rminus_diag, Rabs_R0. cbn [INR]. lra.
  - rewrite steps_snoc in Hx.
    specialize (IH i j).
    destruct (steps noise cfg timestep ret_u n st c) as [sn cn].
    cbn [fst] in IH.
    destruct (engine_step noise cfg timestep ret_u sn cn) as [r c1] eqn:Er.
    cbn [fst] in Hx.
    pose proof (engine_step_p noise cfg timestep ret_u sn cn) as Hp.
    rewrite Er in Hp. cbn [fst] in Hp. rewrite Hp in Hx. clear Hp Er.
    rewrite step_particles_eq in Hx. cbv zeta in Hx. cbn [fst p] in Hx.
    apply entry_madd in Hx as (y & z & Hy & Hz & ->).
    apply entry_mscale in Hz as (w & Hw & ->).
    apply (entry_clip _ _ _ _ _ Hb) in Hw.
    destruct (IH y Hy) as (x0 & Hx0 & Hd).
    exists x0. split; [exact Hx0|].
    replace (y + w * timestep - x0) with ((y - x0) + w * timestep) by ring.
    eapply Rle_trans; [apply Rabs_triang|].
    rewrite Rabs_mult, S_INR.
    assert (Rabs w * Rabs timestep <= v_max cfg * Rabs timestep)
      by (apply Rmult_le_compat_r; [apply Rabs_pos|exact Hw]).
    lra.
Qed.

(** ** Per-particle urgency weights *)

Lemma weigh_zero_row (u : mat) (k : R) (uwm : mat) (col i : nat) (w r : vec) :
  nth_error uwm i = Some w -> uw_col col w = 0 ->
  nth_error (weigh u k uwm col) i = Some r -> Forall (fun x => x = 0) r.
Proof.
  intros Hw H0 Hr. unfold weigh in Hr.
  apply nth_error_zipw in Hr as (r1 & w' & _ & Hw' & ->).
  rewrite Hw in Hw'. injection Hw' as <-.
  apply Forall_forall. intros x Hx. apply in_map_iff in Hx as (y & <- & _).
  rewrite H0. ring.
Qed.

(** X11: [urgency_weights[i, k]] switches urgency [k+1] off for particle
    [i]: when it is 0, row [i] of that urgency is zero whatever the
    positions, the predators and the noise. *)
Theorem urgency_weight_disables (noise : Noise) (cfg : Config) (st : State)
    (distances : mat) (c i : nat) (w : vec) :
  nth_error (uw cfg) i = Some w ->
  (uw_col 0 w = 0 -> forall r,
     nth_error (fst (calculate_urgency1 noise cfg st distances c)) i = Some r ->
     Forall (fun x => x = 0) r) /\
  (uw_col 1 w = 0 -> forall r,
     nth_error (fst (calculate_urgency2 noise cfg st distances c)) i = Some r ->
     Forall (fun x => x = 0) r) /\
  (uw_col 2 w = 0 -> forall r,
     nth_error (fst (calculate_urgency3 noise cfg st distances c)) i = Some r ->
     Forall (fun x => x = 0) r).
Proof.
  intros Hw.
  unfold calculate_urgency1, calculate_urgency2, calculate_urgency3,
    bind, ret, gen_epsilon_matrix.
  cbn [fst]. repeat split; intros H0 r; eapply weigh_zero_row; eassumption.
Qed.

(** ** Instances of the further properties *)

(** The predator of [with_predator], next to a particle elsewhere. *)
Definition moved_particle : State := mkState [[7]] [[2]] [[1]] [[0]] [[0]] [[1]].

Lemma predators_ignore_particles_witness :
  pred_p with_predator = pred_p moved_particle /\
  pred_v with_predator = pred_v moved_particle /\
  pred_a with_predator = pred_a moved_particle /\
  (let r1 := steps (const_noise 1) (cfg_bounds 1 1) 1 false 3%nat with_predator 0%nat in
   let r2 := steps (const_noise 1) (cfg_bounds 1 1) 1 false 3%nat moved_particle 0%nat in
   pred_p (fst r1) = pred_p (fst r2) /\ pred_v (fst r1) = pred_v (fst r2) /\
   pred_a (fst r1) = pred_a (fst r2) /\ snd r1 = snd r2).
Proof.
  split; [reflexivity|]. split; [reflexivity|]. split; [reflexivity|].
  apply (predators_ignore_particles (const_noise 1) (cfg_bounds 1 1) 1 false 3%nat
           with_predator moved_particle 0%nat); reflexivity.
Defined.

Lemma predator_uniform_motion_witness :
  (forall k i j, const_noise 1 k i j = 1) /\
  shape_of (pred_p with_predator) = shape_of (pred_v with_predator) /\
  shape_of (pred_v with_predator) = shape_of (pred_a with_predator) /\
  (forall n i j,
    let st' := fst (steps (const_noise 1) (cfg_bounds 1 1) 1 false n
                      with_predator 0%nat) in
    (forall x, entry (pred_v st') i j = Some x ->
       exists v0 a0, entry (pred_v with_predator) i j = Some v0 /\
         entry (pred_a with_predator) i j = Some a0 /\ x = v0 + INR n * 1 * a0) /\
    (forall x, entry (pred_p st') i j = Some x ->
       exists p0 v0 a0, entry (pred_p with_predator) i j = Some p0 /\
         entry (pred_v with_predator) i j = Some v0 /\
         entry (pred_a with_predator) i j = Some a0 /\
         x = p0 + INR n * 1 * v0 + INR n * INR (S n) / 2 * (1 * 1) * a0)).
Proof.
  split; [intros; reflexivity|]. split; [reflexivity|]. split; [reflexivity|].
  apply (predator_uniform_motion (const_noise 1) (cfg_bounds 1 1) 1 false
           with_predator 0%nat); [intros; reflexivity|reflexivity|reflexivity].
Defined.

Lemma position_drift_bounded_witness :
  0 <= v_max (cfg_bounds 1 1) /\
  (forall n i j x,
    entry (p (fst (steps (const_noise 1) (cfg_bounds 1 1) 1 false n
                     one_particle 0%nat))) i j = Some x ->
    exists x0, entry (p one_particle) i j = Some x0 /\
      Rabs (x - x0) <= INR n * (v_max (cfg_bounds 1 1) * Rabs 1)).
Proof.
  split; [cbn; lra|].
  apply (position_drift_bounded (const_noise 1) (cfg_bounds 1 1) 1 false
           one_particle 0%nat).
  cbn. lra.
Defined.

(** One particle whose three urgencies are all switched off. *)
Definition cfg_muted : Config := mkConfig 1 1 1 5 1 1 1 1 1 1 [[0; 0; 0]].

Lemma urgency_weight_disables_witness :
  nth_error (uw cfg_muted) 0%nat = Some [0; 0; 0] /\
  (uw_col 0%nat [0; 0; 0] = 0 -> forall r,
     nth_error (fst (calculate_urgency1 (const_noise 1) cfg_muted with_predator
                       (pdist_matrix (p with_predator)) 0%nat)) 0%nat = Some r ->
     Forall (fun x => x = 0) r) /\
  (uw_col 1%nat [0; 0; 0] = 0 -> forall r,
     nth_error (fst (calculate_urgency2 (const_noise 1) cfg_muted with_predator
                       (pdist_matrix (p with_predator)) 0%nat)) 0%nat = Some r ->
     Forall (fun x => x = 0) r) /\
  (uw_col 2%nat [0; 0; 0] = 0 -> forall r,
     nth_error (fst (calculate_urgency3 (const_noise 1) cfg_muted with_predator
                       (pdist_matrix (p with_predator)) 0%nat)) 0%nat = Some r ->
     Forall (fun x => x = 0) r).
Proof.
  split; [reflexivity|].
  apply (urgency_weight_disables (const_noise 1) cfg_muted with_predator
           (pdist_matrix (p with_predator)) 0%nat 0%nat [0; 0; 0]).
  reflexivity.
Defined.
